(** * iris-provider-slog: the slog provider of Iris

    A shallow embedding of [slog_provider.go]: the [Provider] that
    implements [slog.Handler] (producer side, [Handle]) and
    [iris.SyncReader] (consumer side, [Read]) over a buffered Go channel,
    its [Close], and the record conversion ([convertSlogRecord],
    [convertLevel], [convertAttribute]).

    Go's [select] is modelled by the cases that can proceed: when several
    can, any of them may run (the language picks one pseudo-randomly);
    when none can, the [default] arm runs if there is one and the call
    blocks otherwise.  Every call is one atomic step on the provider's
    state, so the model covers all interleavings of complete calls; a
    goroutine parked inside [Read] while another call runs (the direct
    hand-off of an unbuffered channel) is outside it. *)

From Stdlib Require Import ZArith List String Bool Lia PeanoNat.
Import ListNotations.

#[local] Open Scope string_scope.
#[local] Open Scope list_scope.
#[local] Open Scope Z_scope.

(** ** Go values shared by the model *)

(** A Go [error]: [None] is [nil], [Some msg] an error with that text. *)
Definition error : Type := option string.

(** A call either returns or panics. *)
Inductive result (A : Type) : Type :=
| Ok (a : A)
| Panics (msg : string).

Arguments Ok {A} a.
Arguments Panics {A} msg.

(** ** log/slog (standard library, as far as the provider uses it) *)

Module slog.

(** [slog.Level] is an [int]; only comparisons are made on it. *)
Definition Level : Type := Z.

Definition LevelDebug : Level := -4.
Definition LevelInfo : Level := 0.
Definition LevelWarn : Level := 4.
Definition LevelError : Level := 8.

Inductive Kind : Type :=
| KindAny
| KindBool
| KindDuration
| KindFloat64
| KindInt64
| KindString
| KindTime
| KindUint64
| KindGroup
| KindLogValuer.

(** [slog.Value].  A float is carried as its 64 bits, a duration as its
    nanoseconds, a time as its instant; the conversion passes them
    through unchanged.  The payload of the three remaining kinds is only
    ever observed through [String()], so it is carried as that
    rendering. *)
Inductive Value : Type :=
| StringValue (s : string)
| Int64Value (n : Z)
| Uint64Value (n : Z)
| Float64Value (bits : Z)
| BoolValue (b : bool)
| DurationValue (d : Z)
| TimeValue (t : Z)
| AnyValue (sprint : string)
| GroupValue (sprint : string)
| LogValuerValue (sprint : string).

Definition Value_Kind (v : Value) : Kind :=
  match v with
  | StringValue _ => KindString
  | Int64Value _ => KindInt64
  | Uint64Value _ => KindUint64
  | Float64Value _ => KindFloat64
  | BoolValue _ => KindBool
  | DurationValue _ => KindDuration
  | TimeValue _ => KindTime
  | AnyValue _ => KindAny
  | GroupValue _ => KindGroup
  | LogValuerValue _ => KindLogValuer
  end.

Record Attr : Type := mkAttr { Attr_Key : string; Attr_Value : Value }.

(** [slog.Record]: time, message, level, program counter and the ordered
    attributes. *)
Record Record : Type := mkRecord {
  Record_Time : Z;
  Record_Message : string;
  Record_Level : Level;
  Record_PC : Z;
  Record_attrs : list Attr
}.

(** [Record.Attrs(f)]: calls [f] on each attribute in order and stops at
    the first call that returns false.  The callback's captured state is
    threaded explicitly. *)
Fixpoint Attrs {S : Type} (l : list Attr) (f : Attr -> S -> S * bool) (s : S) : S :=
  match l with
  | [] => s
  | a :: rest =>
      let '(s', continue) := f a s in
      if continue then Attrs rest f s' else s'
  end.

End slog.

(** ** github.com/agilira/iris (the downstream library, as far as the
    provider uses it) *)

Module iris.

Inductive Level : Type :=
| Debug
| Info
| Warn
| Error
| DPanic
| Panic
| Fatal.

(** The numeric order of the levels, [Debug] lowest. *)
Definition Level_rank (l : Level) : nat :=
  match l with
  | Debug => 0
  | Info => 1
  | Warn => 2
  | Error => 3
  | DPanic => 4
  | Panic => 5
  | Fatal => 6
  end%nat.

(** The typed field constructors the provider calls. *)
Inductive Field : Type :=
| String (key : string) (s : string)
| Int64 (key : string) (n : Z)
| Uint64 (key : string) (n : Z)
| Float64 (key : string) (bits : Z)
| Bool (key : string) (b : bool)
| Dur (key : string) (d : Z)
| Time (key : string) (t : Z).

(** Modelled from the spec: the field limit of an [iris.Record] belongs
    to the downstream library, whose code is not part of this
    repository.  The comment on [convertSlogRecord] gives it as 32
    fields; no proof below depends on the number. *)
Definition maxFields : nat := 32.

Record Record : Type := mkRecord {
  Record_Level : Level;
  Record_Msg : string;
  Record_fields : list Field
}.

Definition NewRecord (level : Level) (msg : string) : Record :=
  {| Record_Level := level; Record_Msg := msg; Record_fields := [] |}.

(** Modelled from the spec: [Record.AddField] is the downstream
    library's.  It stores the field and reports true while the record
    holds fewer than [maxFields] fields, and reports false, leaving the
    record as it is, once the record is full ("respecting Iris field
    limits", "excess fields are silently dropped"). *)
Definition AddField (r : Record) (field : Field) : Record * bool :=
  if (List.length (Record_fields r) <? maxFields)%nat
  then ({| Record_Level := Record_Level r;
           Record_Msg := Record_Msg r;
           Record_fields := Record_fields r ++ [field] |}, true)
  else (r, false).

End iris.

(** ** Record conversion *)

(** [Provider.convertLevel]. *)
Definition convertLevel (slogLevel : slog.Level) : iris.Level :=
  if slogLevel <=? slog.LevelDebug then iris.Debug
  else if slogLevel <=? slog.LevelInfo then iris.Info
  else if slogLevel <=? slog.LevelWarn then iris.Warn
  else iris.Error.

(** [Provider.convertAttribute]: the switch on [value.Kind()]; each arm
    reads the payload of its kind, the [default] arm the rendering. *)
Definition convertAttribute (attr : slog.Attr) : iris.Field :=
  let key := slog.Attr_Key attr in
  let value := slog.Attr_Value attr in
  match value with
  | slog.StringValue s => iris.String key s
  | slog.Int64Value n => iris.Int64 key n
  | slog.Uint64Value n => iris.Uint64 key n
  | slog.Float64Value x => iris.Float64 key x
  | slog.BoolValue b => iris.Bool key b
  | slog.DurationValue d => iris.Dur key d
  | slog.TimeValue t => iris.Time key t
  | slog.AnyValue s => iris.String key s
  | slog.GroupValue s => iris.String key s
  | slog.LogValuerValue s => iris.String key s
  end.

(** [Provider.convertSlogRecord]. *)
Definition convertSlogRecord (slogRec : slog.Record) : iris.Record :=
  let record :=
    iris.NewRecord (convertLevel (slog.Record_Level slogRec)) (slog.Record_Message slogRec) in
  slog.Attrs (slog.Record_attrs slogRec)
    (fun attr record =>
       let field := convertAttribute attr in
       iris.AddField record field)
    record.

(** ** Go channels *)

(** A channel of capacity [chan_cap]: the values sent and not yet
    received, oldest first, and whether [close] was called on it. *)
Record chan (A : Type) : Type := mkChan {
  chan_buf : list A;
  chan_cap : nat;
  chan_closed : bool
}.

Arguments mkChan {A} chan_buf chan_cap chan_closed.
Arguments chan_buf {A} c.
Arguments chan_cap {A} c.
Arguments chan_closed {A} c.

(** [make(chan A, size)]. *)
Definition make_chan {A : Type} (size : Z) : result (chan A) :=
  if size <? 0 then Panics "makechan: size out of range"
  else Ok (mkChan [] (Z.to_nat size) false).

(** A send can proceed when the buffer has room; on a closed channel it
    proceeds by panicking. *)
Definition send_ready {A : Type} (c : chan A) : bool :=
  chan_closed c || (List.length (chan_buf c) <? chan_cap c)%nat.

Definition send {A : Type} (c : chan A) (x : A) : result (chan A) :=
  if chan_closed c then Panics "send on closed channel"
  else Ok (mkChan (chan_buf c ++ [x]) (chan_cap c) (chan_closed c)).

(** A receive can proceed when a value is buffered or the channel is
    closed; a closed, drained channel yields the zero value. *)
Definition recv_ready {A : Type} (c : chan A) : bool :=
  match chan_buf c with
  | [] => chan_closed c
  | _ :: _ => true
  end.

Definition recv {A : Type} (zero : A) (c : chan A) : chan A * A :=
  match chan_buf c with
  | [] => (c, zero)
  | x :: rest => (mkChan rest (chan_cap c) (chan_closed c), x)
  end.

Definition close {A : Type} (c : chan A) : result (chan A) :=
  if chan_closed c then Panics "close of closed channel"
  else Ok (mkChan (chan_buf c) (chan_cap c) true).

(** ** context.Context *)

Module context.

(** A context as a call sees it: still active, or done with the error
    [Err()] then reports.  [Done()] can be received from exactly when the
    context is done. *)
Inductive Context : Type :=
| Active
| Done (err : string).

Definition Background : Context := Active.

Definition Done_ready (ctx : Context) : bool :=
  match ctx with
  | Active => false
  | Done _ => true
  end.

Definition Err (ctx : Context) : error :=
  match ctx with
  | Active => None
  | Done err => Some err
  end.

End context.

(** ** The provider *)

(** [Provider]: the buffered channel of records, the shutdown signal
    channel, and the [sync.Once] (true once its function has run). *)
Record Provider : Type := mkProvider {
  records : chan slog.Record;
  closed : chan unit;
  once : bool
}.

(** [New]. *)
Definition New (bufferSize : Z) : result Provider :=
  match make_chan bufferSize, make_chan 0 with
  | Ok r, Ok c => Ok (mkProvider r c false)
  | Panics msg, _ => Panics msg
  | _, Panics msg => Panics msg
  end.

(** The zero [slog.Record], what a receive from a closed and drained
    channel of records would yield. *)
Definition zeroRecord : slog.Record := slog.mkRecord 0 "" 0 0 [].

(** *** Handle *)

(** The arms of the [select] in [Handle]. *)
Inductive HandleArm : Type :=
| HandleSend
| HandleClosed
| HandleDefault.

(** The communication cases of [Handle]'s select that can proceed. *)
Definition Handle_ready (p : Provider) : list HandleArm :=
  (if send_ready (records p) then [HandleSend] else [])
  ++ (if recv_ready (closed p) then [HandleClosed] else []).

(** The arms the select may run: any case that can proceed, and the
    [default] arm when none can. *)
Definition Handle_select (p : Provider) : list HandleArm :=
  match Handle_ready p with
  | [] => [HandleDefault]
  | ready => ready
  end.

(** The body of each arm: the new state and the returned error. *)
Definition Handle_arm (arm : HandleArm) (ctx : context.Context)
    (record : slog.Record) (p : Provider) : result (Provider * error) :=
  match arm with
  | HandleSend =>
      match send (records p) record with
      | Ok c => Ok (mkProvider c (closed p) (once p), None)
      | Panics msg => Panics msg
      end
  | HandleClosed =>
      let '(c, _) := recv tt (closed p) in
      Ok (mkProvider (records p) c (once p), Some "slog provider closed")
  | HandleDefault => Ok (p, None)
  end.

(** [Provider.Handle]: every way the call can go, as the arm taken and
    what it yields.  The list is never empty: the call cannot block. *)
Definition Handle (ctx : context.Context) (record : slog.Record) (p : Provider)
    : list (HandleArm * result (Provider * error)) :=
  map (fun arm => (arm, Handle_arm arm ctx record p)) (Handle_select p).

(** *** Read *)

Inductive ReadArm : Type :=
| ReadRecord
| ReadDone
| ReadClosed.

(** The cases of [Read]'s select that can proceed.  There is no
    [default] arm: when the list is empty the call blocks. *)
Definition Read_select (ctx : context.Context) (p : Provider) : list ReadArm :=
  (if recv_ready (records p) then [ReadRecord] else [])
  ++ (if context.Done_ready ctx then [ReadDone] else [])
  ++ (if recv_ready (closed p) then [ReadClosed] else []).

(** The body of each arm: the new state, the returned record ([None] is
    the nil pointer) and the returned error. *)
Definition Read_arm (arm : ReadArm) (ctx : context.Context) (p : Provider)
    : Provider * (option iris.Record * error) :=
  match arm with
  | ReadRecord =>
      let '(c, record) := recv zeroRecord (records p) in
      (mkProvider c (closed p) (once p), (Some (convertSlogRecord record), None))
  | ReadDone => (p, (None, context.Err ctx))
  | ReadClosed =>
      let '(c, _) := recv tt (closed p) in
      (mkProvider (records p) c (once p), (None, None))
  end.

(** [Provider.Read]: every way the call can return; the empty list means
    that it blocks. *)
Definition Read (ctx : context.Context) (p : Provider)
    : list (ReadArm * (Provider * (option iris.Record * error))) :=
  map (fun arm => (arm, Read_arm arm ctx p)) (Read_select ctx p).

(** *** Close *)

(** [Provider.Close]: [once.Do] runs [close(p.closed)] on the first call
    only. *)
Definition Close (p : Provider) : result (Provider * error) :=
  if once p then Ok (p, None)
  else
    match close (closed p) with
    | Ok c => Ok (mkProvider (records p) c true, None)
    | Panics msg => Panics msg
    end.

(** [Provider.Enabled], [WithAttrs] and [WithGroup]. *)
Definition Enabled (ctx : context.Context) (level : slog.Level) (p : Provider) : bool := true.

Definition WithAttrs (attrs : list slog.Attr) (p : Provider) : Provider := p.

Definition WithGroup (name : string) (p : Provider) : Provider := p.

(** ** Executions *)

(** What callers can ask of a provider. *)
Inductive Call : Type :=
| CallHandle (ctx : context.Context) (record : slog.Record)
| CallRead (ctx : context.Context)
| CallClose.

(** One completed call: the call, the arm its select took, and what it
    returned. *)
Inductive Event : Type :=
| EvHandle (ctx : context.Context) (record : slog.Record) (arm : HandleArm) (err : error)
| EvRead (ctx : context.Context) (arm : ReadArm) (rec : option iris.Record) (err : error)
| EvClose (err : error).

Definition call_of (ev : Event) : Call :=
  match ev with
  | EvHandle ctx record _ _ => CallHandle ctx record
  | EvRead ctx _ _ _ => CallRead ctx
  | EvClose _ => CallClose
  end.

(** What the [Read] calls of a trace returned, in order. *)
Fixpoint delivered (tr : list Event) : list (option iris.Record * error) :=
  match tr with
  | [] => []
  | EvRead _ _ rec err :: rest => (rec, err) :: delivered rest
  | _ :: rest => delivered rest
  end.

(** A call that returns takes the provider from one state to the next. *)
Inductive step : Provider -> Event -> Provider -> Prop :=
| step_Handle : forall p ctx record arm p' err,
    In (arm, Ok (p', err)) (Handle ctx record p) ->
    step p (EvHandle ctx record arm err) p'
| step_Read : forall p ctx arm p' rec err,
    In (arm, (p', (rec, err))) (Read ctx p) ->
    step p (EvRead ctx arm rec err) p'
| step_Close : forall p p' err,
    Close p = Ok (p', err) ->
    step p (EvClose err) p'.

Inductive steps : Provider -> list Event -> Provider -> Prop :=
| steps_nil : forall p, steps p [] p
| steps_cons : forall p ev p' tr p'',
    step p ev p' -> steps p' tr p'' -> steps p (ev :: tr) p''.

(** The states a provider made by [New] can be in. *)
Definition reachable (p : Provider) : Prop :=
  exists bufferSize p0 tr, New bufferSize = Ok p0 /\ steps p0 tr p.

(** The shutdown signal, the buffered records (oldest first) and the
    capacity of the buffer. *)
Definition is_closed (p : Provider) : bool := chan_closed (closed p).

Definition buffered (p : Provider) : list slog.Record := chan_buf (records p).

Definition capacity (p : Provider) : nat := chan_cap (records p).

(** The three results of the hand-off queue's Enqueue, by the arm of
    [Handle] that produces each. *)
Inductive EnqueueResult : Type :=
| Accepted
| Dropped
| Closed.

Definition Handle_result (arm : HandleArm) : EnqueueResult :=
  match arm with
  | HandleSend => Accepted
  | HandleDefault => Dropped
  | HandleClosed => Closed
  end.

(** *** Derived observations *)

(** The provider after the send arm of [Handle] stored [record], and
    after the receive arm of [Read] took the oldest record. *)
Definition stored (record : slog.Record) (p : Provider) : Provider :=
  mkProvider
    (mkChan (chan_buf (records p) ++ [record]) (chan_cap (records p)) (chan_closed (records p)))
    (closed p) (once p).

Definition taken (p : Provider) : Provider :=
  mkProvider
    (mkChan (tl (chan_buf (records p))) (chan_cap (records p)) (chan_closed (records p)))
    (closed p) (once p).

(** What the [Handle] calls of a trace came to, in order. *)
Fixpoint handled (tr : list Event) : list (EnqueueResult * error) :=
  match tr with
  | [] => []
  | EvHandle _ _ arm err :: rest => (Handle_result arm, err) :: handled rest
  | _ :: rest => handled rest
  end.

(** The records the [Handle] calls of a trace stored, and the records
    its [Read] calls returned, in order. *)
Fixpoint accepted (tr : list Event) : list slog.Record :=
  match tr with
  | [] => []
  | EvHandle _ record HandleSend _ :: rest => record :: accepted rest
  | _ :: rest => accepted rest
  end.

Fixpoint returned (tr : list Event) : list iris.Record :=
  match tr with
  | [] => []
  | EvRead _ _ (Some rec) _ :: rest => rec :: returned rest
  | _ :: rest => returned rest
  end.

(** [n] successive calls of [Close]. *)
Fixpoint Close_times (n : nat) (p : Provider) : result Provider :=
  match n with
  | O => Ok p
  | S n' =>
      match Close p with
      | Ok (p', _) => Close_times n' p'
      | Panics msg => Panics msg
      end
  end.

(** *** Concrete records and providers for the examples *)

(** Two records. *)
Definition recordA : slog.Record :=
  slog.mkRecord 1 "A" slog.LevelInfo 0 [slog.mkAttr "key" (slog.StringValue "value")].

Definition recordB : slog.Record :=
  slog.mkRecord 2 "B" slog.LevelWarn 0 [slog.mkAttr "n" (slog.Int64Value 7)].

(** [New(1)] and [New(2)]. *)
Definition provider1 : Provider := mkProvider (mkChan [] 1 false) (mkChan [] 0 false) false.

Definition provider2 : Provider := mkProvider (mkChan [] 2 false) (mkChan [] 0 false) false.

(** [provider2] after [Close]. *)
Definition provider2_closed : Provider :=
  mkProvider (mkChan [] 2 false) (mkChan [] 0 true) true.

(** A producer handling [recordA] then [recordB], then two reads. *)
Definition calls_AB : list Call :=
  [CallHandle context.Background recordA; CallHandle context.Background recordB;
   CallRead context.Background; CallRead context.Background].

(** Two records of 33 and 40 attributes that agree on the first 32 and
    differ in time, program counter and level (1 and 3, both in the warn
    bucket). *)
Definition record33 : slog.Record :=
  slog.mkRecord 10 "m" 1 100
    (map (fun i => slog.mkAttr "k" (slog.Int64Value (Z.of_nat i))) (seq 0 33)).

Definition record40 : slog.Record :=
  slog.mkRecord 20 "m" 3 200
    (map (fun i => slog.mkAttr "k" (slog.Int64Value (Z.of_nat i))) (seq 0 32)
     ++ map (fun i => slog.mkAttr "other" (slog.BoolValue true)) (seq 0 8)).

(** Whether a completed call told its caller that the provider is
    closed: a [Handle] that returned an error, or a [Read] that returned
    neither a record nor an error. *)
Definition reports_closed (ev : Event) : bool :=
  match ev with
  | EvHandle _ _ _ (Some _) => true
  | EvRead _ _ None None => true
  | _ => false
  end.

(** Whether a completed call is a [Close]. *)
Definition is_Close (ev : Event) : bool :=
  match ev with
  | EvClose _ => true
  | _ => false
  end.

(** *** Derived handlers *)

(** The two ways slog derives a handler from another. *)
Inductive Derivation : Type :=
| DeriveAttrs (attrs : list slog.Attr)
| DeriveGroup (name : string).

(** The handler a chain of [WithAttrs] and [WithGroup] calls yields,
    the first derivation of the list applied first. *)
Fixpoint derive (ds : list Derivation) (p : Provider) : Provider :=
  match ds with
  | [] => p
  | DeriveAttrs attrs :: rest => derive rest (WithAttrs attrs p)
  | DeriveGroup name :: rest => derive rest (WithGroup name p)
  end.

(** The key a field was built with. *)
Definition Field_key (f : iris.Field) : string :=
  match f with
  | iris.String key _ => key
  | iris.Int64 key _ => key
  | iris.Uint64 key _ => key
  | iris.Float64 key _ => key
  | iris.Bool key _ => key
  | iris.Dur key _ => key
  | iris.Time key _ => key
  end.

(** ** The writer of the integration tests *)

(** [bufferedWriter]: the bytes written so far. *)
Record bufferedWriter : Type := mkBufferedWriter {
  data : list Byte.byte
}.

(** [bufferedWriter.Write]: appends [p] and returns its length and a nil
    error. *)
Definition bufferedWriter_Write (b : bufferedWriter) (p : list Byte.byte)
    : bufferedWriter * (Z * error) :=
  (mkBufferedWriter (data b ++ p), (Z.of_nat (List.length p), None)).

(** [bufferedWriter.Sync]. *)
Definition bufferedWriter_Sync (b : bufferedWriter) : bufferedWriter * error :=
  (b, None).

(** [bufferedWriter.String]: the bytes as a string. *)
Definition bufferedWriter_String (b : bufferedWriter) : string :=
  string_of_list_byte (data b).

(** Successive [Write] calls, one per chunk: the writer afterwards and
    what each call returned. *)
Fixpoint bufferedWriter_Writes (b : bufferedWriter) (chunks : list (list Byte.byte))
    : bufferedWriter * list (Z * error) :=
  match chunks with
  | [] => (b, [])
  | p :: rest =>
      let '(b', ret) := bufferedWriter_Write b p in
      let '(b'', rets) := bufferedWriter_Writes b' rest in
      (b'', ret :: rets)
  end.

(** ** Invariant of the reachable states *)

(** The records channel is never closed, nothing is ever sent on the
    signal channel, the signal is closed exactly when the [sync.Once]
    has run, and the buffer never exceeds its capacity. *)
Definition inv (p : Provider) : Prop :=
  chan_closed (records p) = false
  /\ chan_buf (closed p) = []
  /\ chan_closed (closed p) = once p
  /\ (List.length (buffered p) <= capacity p)%nat.

(** Splits a conjunction without unfolding its conjuncts. *)
Ltac splits := repeat match goal with |- _ /\ _ => split end.

Lemma inv_New : forall bufferSize p, New bufferSize = Ok p -> inv p.
Proof.
  intros n p H. unfold New, make_chan in H. simpl in H.
  destruct (n <? 0); [discriminate|].
  injection H as <-. unfold inv, buffered, capacity. simpl.
  repeat split; auto. lia.
Qed.

Lemma Handle_in : forall ctx record p arm res,
  In (arm, res) (Handle ctx record p) <->
  In arm (Handle_select p) /\ res = Handle_arm arm ctx record p.
Proof.
  intros. unfold Handle. rewrite in_map_iff. split.
  - intros [a [E Hin]]. injection E as <- <-. auto.
  - intros [Hin ->]. exists arm. auto.
Qed.

Lemma Read_in : forall ctx p arm res,
  In (arm, res) (Read ctx p) <->
  In arm (Read_select ctx p) /\ res = Read_arm arm ctx p.
Proof.
  intros. unfold Read. rewrite in_map_iff. split.
  - intros [a [E Hin]]. injection E as <- <-. auto.
  - intros [Hin ->]. exists arm. auto.
Qed.

(** Under the invariant the cases that can proceed are read off the
    buffer and the signal. *)
Lemma Handle_select_inv : forall p, inv p ->
  Handle_select p =
    match (List.length (buffered p) <? capacity p)%nat, is_closed p with
    | true, true => [HandleSend; HandleClosed]
    | true, false => [HandleSend]
    | false, true => [HandleClosed]
    | false, false => [HandleDefault]
    end.
Proof.
  intros p (Hr & Hb & _ & _).
  unfold Handle_select, Handle_ready, send_ready, recv_ready, buffered, capacity, is_closed.
  rewrite Hr, Hb. simpl.
  destruct (List.length (chan_buf (records p)) <? chan_cap (records p))%nat;
    destruct (chan_closed (closed p)); reflexivity.
Qed.

Lemma Read_select_inv : forall ctx p, inv p ->
  Read_select ctx p =
    (match buffered p with [] => [] | _ :: _ => [ReadRecord] end)
    ++ (if context.Done_ready ctx then [ReadDone] else [])
    ++ (if is_closed p then [ReadClosed] else []).
Proof.
  intros ctx p (Hr & Hb & _ & _).
  unfold Read_select, recv_ready, buffered, is_closed.
  rewrite Hr, Hb. destruct (chan_buf (records p)); reflexivity.
Qed.

Lemma recv_signal_inv : forall p, inv p -> recv tt (closed p) = (closed p, tt).
Proof.
  intros p (_ & Hb & _ & _). unfold recv. rewrite Hb. reflexivity.
Qed.

Lemma Provider_eta : forall p, mkProvider (records p) (closed p) (once p) = p.
Proof. intros []. reflexivity. Qed.

Lemma inv_step : forall p ev p', inv p -> step p ev p' -> inv p'.
Proof.
  intros p ev p' Hinv Hstep. inversion Hstep; subst; clear Hstep.
  - apply Handle_in in H as [Hsel Harm].
    rewrite (Handle_select_inv _ Hinv) in Hsel.
    destruct Hinv as (Hr & Hb & Ho & Hl).
    unfold buffered, capacity, is_closed in *.
    destruct arm; simpl in Harm.
    + unfold send in Harm. rewrite Hr in Harm. injection Harm as -> ->.
      destruct (Nat.ltb_spec (List.length (chan_buf (records p))) (chan_cap (records p)))
        as [Hlt|Hge].
      * unfold inv, buffered, capacity. simpl. rewrite length_app. simpl.
        repeat split; auto. lia.
      * destruct (chan_closed (closed p)); simpl in Hsel;
          (destruct Hsel as [E|[]]; discriminate E).
    + unfold recv in Harm. rewrite Hb in Harm. injection Harm as -> ->.
      unfold inv, buffered, capacity. simpl. repeat split; auto.
    + injection Harm as -> ->. unfold inv, buffered, capacity. auto.
  - apply Read_in in H as [_ Harm].
    destruct Hinv as (Hr & Hb & Ho & Hl).
    unfold buffered, capacity in *.
    destruct arm; simpl in Harm.
    + unfold recv in Harm. destruct (chan_buf (records p)) as [|x rest] eqn:E.
      * injection Harm as -> -> ->. unfold inv, buffered, capacity. simpl.
        rewrite E. repeat split; auto.
      * injection Harm as -> -> ->. unfold inv, buffered, capacity. simpl.
        simpl in Hl. repeat split; auto. lia.
    + injection Harm as -> -> ->. unfold inv, buffered, capacity. auto.
    + unfold recv in Harm. rewrite Hb in Harm. injection Harm as -> -> ->.
      unfold inv, buffered, capacity. simpl. repeat split; auto.
  - destruct Hinv as (Hr & Hb & Ho & Hl). unfold Close, close in H.
    rewrite <- Ho in H. unfold buffered, capacity in *.
    destruct (chan_closed (closed p)) eqn:E.
    + injection H as <- <-. unfold inv, buffered, capacity. rewrite E. auto.
    + injection H as <- <-. unfold inv, buffered, capacity. simpl. auto.
Qed.

Lemma inv_steps : forall p tr p', steps p tr p' -> inv p -> inv p'.
Proof.
  induction 1; intros Hinv; [assumption|].
  apply IHsteps. eapply inv_step; eassumption.
Qed.

Lemma inv_reachable : forall p, reachable p -> inv p.
Proof.
  intros p (n & p0 & tr & HN & Hs).
  eapply inv_steps; [eassumption|]. eapply inv_New; eassumption.
Qed.

Lemma steps_app : forall p tr1 p' tr2 p'',
  steps p tr1 p' -> steps p' tr2 p'' -> steps p (tr1 ++ tr2) p''.
Proof.
  induction 1; intros H2; simpl; [assumption|].
  econstructor; [eassumption|]. apply IHsteps. assumption.
Qed.

Lemma steps_app_inv : forall tr1 tr2 p p'',
  steps p (tr1 ++ tr2) p'' -> exists p', steps p tr1 p' /\ steps p' tr2 p''.
Proof.
  induction tr1 as [|ev tr1 IH]; intros tr2 p p'' H; simpl in H.
  - exists p. split; [constructor|assumption].
  - inversion H; subst. destruct (IH _ _ _ H5) as (pm & H1 & H2).
    exists pm. split; [econstructor; eassumption|assumption].
Qed.

Lemma reachable_New : forall bufferSize p, New bufferSize = Ok p -> reachable p.
Proof. intros n p H. exists n, p, []. split; [assumption|constructor]. Qed.

Lemma reachable_step : forall p ev p', reachable p -> step p ev p' -> reachable p'.
Proof.
  intros p ev p' (n & p0 & tr & HN & Hs) Hstep.
  exists n, p0, (tr ++ [ev]). split; [assumption|].
  eapply steps_app; [eassumption|]. econstructor; [eassumption|constructor].
Qed.

(** [New] on the sizes the examples use, and on a negative size. *)
Example New_examples :
  New 1 = Ok provider1
  /\ New 2 = Ok provider2
  /\ New (-1) = Panics "makechan: size out of range"
  /\ Close provider2 = Ok (provider2_closed, None).
Proof. splits; reflexivity. Qed.

(** ** Record conversion: properties *)

(** Feeding attributes to a record through [AddField] appends their
    conversions until the record is full and nothing after that. *)
Lemma Attrs_AddField : forall l record,
  slog.Attrs l (fun attr record => iris.AddField record (convertAttribute attr)) record =
  iris.mkRecord (iris.Record_Level record) (iris.Record_Msg record)
    (iris.Record_fields record
     ++ firstn (iris.maxFields - List.length (iris.Record_fields record))
          (map convertAttribute l)).
Proof.
  induction l as [|a rest IH]; intros [lvl msg fs].
  - cbn [slog.Attrs map iris.Record_Level iris.Record_Msg iris.Record_fields].
    rewrite firstn_nil, app_nil_r. reflexivity.
  - cbn [slog.Attrs map]. unfold iris.AddField at 1.
    cbn [iris.Record_Level iris.Record_Msg iris.Record_fields].
    destruct (Nat.ltb_spec (List.length fs) iris.maxFields) as [Hlt|Hge].
    + rewrite IH. cbn [iris.Record_Level iris.Record_Msg iris.Record_fields].
      rewrite length_app. cbn [List.length].
      replace (iris.maxFields - List.length fs)%nat
        with (S (iris.maxFields - (List.length fs + 1)))%nat by lia.
      cbn [firstn]. rewrite <- app_assoc. reflexivity.
    + replace (iris.maxFields - List.length fs)%nat with 0%nat by lia.
      cbn [firstn]. rewrite app_nil_r. reflexivity.
Qed.

(** C8: record conversion is total and pure.  Every slog record yields
    the iris record that carries its message, the level of the bucket
    its level falls in (at most debug, at most info, at most warn,
    above), and the conversions of its attributes in order, cut after
    the first [iris.maxFields]; each attribute keeps its key and goes to
    the field constructor of its kind, the kinds without one to a string
    field holding the value's rendering. *)
Theorem convertSlogRecord_total :
  (forall slogRec,
     convertSlogRecord slogRec =
     iris.mkRecord (convertLevel (slog.Record_Level slogRec))
       (slog.Record_Message slogRec)
       (firstn iris.maxFields (map convertAttribute (slog.Record_attrs slogRec))))
  /\ (forall l,
        (l <= slog.LevelDebug -> convertLevel l = iris.Debug)
        /\ (slog.LevelDebug < l <= slog.LevelInfo -> convertLevel l = iris.Info)
        /\ (slog.LevelInfo < l <= slog.LevelWarn -> convertLevel l = iris.Warn)
        /\ (slog.LevelWarn < l -> convertLevel l = iris.Error))
  /\ (forall key v,
        convertAttribute (slog.mkAttr key v) =
        match v with
        | slog.StringValue s => iris.String key s
        | slog.Int64Value n => iris.Int64 key n
        | slog.Uint64Value n => iris.Uint64 key n
        | slog.Float64Value x => iris.Float64 key x
        | slog.BoolValue b => iris.Bool key b
        | slog.DurationValue d => iris.Dur key d
        | slog.TimeValue t => iris.Time key t
        | slog.AnyValue s | slog.GroupValue s | slog.LogValuerValue s => iris.String key s
        end
        /\ (match slog.Value_Kind v with
            | slog.KindString => exists s, convertAttribute (slog.mkAttr key v) = iris.String key s
            | slog.KindInt64 => exists n, convertAttribute (slog.mkAttr key v) = iris.Int64 key n
            | slog.KindUint64 => exists n, convertAttribute (slog.mkAttr key v) = iris.Uint64 key n
            | slog.KindFloat64 => exists x, convertAttribute (slog.mkAttr key v) = iris.Float64 key x
            | slog.KindBool => exists b, convertAttribute (slog.mkAttr key v) = iris.Bool key b
            | slog.KindDuration => exists d, convertAttribute (slog.mkAttr key v) = iris.Dur key d
            | slog.KindTime => exists t, convertAttribute (slog.mkAttr key v) = iris.Time key t
            | slog.KindAny | slog.KindGroup | slog.KindLogValuer =>
                exists s, convertAttribute (slog.mkAttr key v) = iris.String key s
            end)).
Proof.
  split; [|split].
  - intros slogRec. unfold convertSlogRecord. rewrite Attrs_AddField.
    cbn [iris.NewRecord iris.Record_Level iris.Record_Msg iris.Record_fields List.length app].
    rewrite Nat.sub_0_r. reflexivity.
  - intros l. unfold convertLevel, slog.LevelDebug, slog.LevelInfo, slog.LevelWarn.
    destruct (Z.leb_spec l (-4)); destruct (Z.leb_spec l 0); destruct (Z.leb_spec l 4);
      repeat split; intros Hl; try reflexivity; lia.
  - intros key v. split.
    + destruct v; reflexivity.
    + destruct v; simpl; eexists; reflexivity.
Qed.

(** The truncation at work: a record of 40 attributes converts to its
    first 32, in order. *)
Example convertSlogRecord_truncates :
  let a i := slog.mkAttr "k" (slog.Int64Value (Z.of_nat i)) in
  let slogRec := slog.mkRecord 0 "m" slog.LevelInfo 0 (map a (seq 0 40)) in
  iris.Record_fields (convertSlogRecord slogRec) =
  map (fun i => iris.Int64 "k" (Z.of_nat i)) (seq 0 32).
Proof. vm_compute. reflexivity. Qed.

(** C9: level conversion is monotone for the order Debug < Info < Warn <
    Error of the iris levels, and only ever yields one of these four. *)
Theorem convertLevel_monotone : forall a b : slog.Level,
  a <= b ->
  (iris.Level_rank (convertLevel a) <= iris.Level_rank (convertLevel b))%nat
  /\ (convertLevel a = iris.Debug \/ convertLevel a = iris.Info
      \/ convertLevel a = iris.Warn \/ convertLevel a = iris.Error).
Proof.
  intros a b Hab. unfold convertLevel, slog.LevelDebug, slog.LevelInfo, slog.LevelWarn.
  destruct (Z.leb_spec a (-4)); destruct (Z.leb_spec a 0); destruct (Z.leb_spec a 4);
    destruct (Z.leb_spec b (-4)); destruct (Z.leb_spec b 0); destruct (Z.leb_spec b 4);
    simpl; split; try lia; auto.
Qed.

(** [convertLevel_monotone] at the levels 0 (info) and 2. *)
Lemma convertLevel_monotone_witness :
  slog.LevelInfo <= 2
  /\ (iris.Level_rank (convertLevel slog.LevelInfo) <= iris.Level_rank (convertLevel 2%Z))%nat
  /\ (convertLevel slog.LevelInfo = iris.Debug \/ convertLevel slog.LevelInfo = iris.Info
      \/ convertLevel slog.LevelInfo = iris.Warn \/ convertLevel slog.LevelInfo = iris.Error).
Proof.
  split; [unfold slog.LevelInfo; lia|].
  apply (convertLevel_monotone slog.LevelInfo 2). unfold slog.LevelInfo. lia.
Defined.

(** ** The hand-off queue while it is open *)

Lemma Handle_arm_send : forall ctx record p, inv p ->
  Handle_arm HandleSend ctx record p = Ok (stored record p, None).
Proof.
  intros ctx record p (Hr & _). unfold Handle_arm, send, stored.
  rewrite Hr. reflexivity.
Qed.

Lemma Handle_arm_closed : forall ctx record p, inv p ->
  Handle_arm HandleClosed ctx record p = Ok (p, Some "slog provider closed").
Proof.
  intros ctx record p Hinv. unfold Handle_arm.
  rewrite (recv_signal_inv _ Hinv), Provider_eta. reflexivity.
Qed.

Lemma Read_arm_record : forall ctx p r rest, buffered p = r :: rest ->
  Read_arm ReadRecord ctx p = (taken p, (Some (convertSlogRecord r), None)).
Proof.
  intros ctx p r rest Hb. unfold buffered in Hb.
  unfold Read_arm, recv, taken. rewrite Hb. reflexivity.
Qed.

Lemma Read_arm_closed : forall ctx p, inv p ->
  Read_arm ReadClosed ctx p = (p, (None, None)).
Proof.
  intros ctx p Hinv. unfold Read_arm.
  rewrite (recv_signal_inv _ Hinv), Provider_eta. reflexivity.
Qed.

(** Open, with room: the send is the only case that can proceed. *)
Lemma Handle_open_room : forall ctx record p,
  inv p -> is_closed p = false -> (List.length (buffered p) < capacity p)%nat ->
  Handle ctx record p = [(HandleSend, Ok (stored record p, None))].
Proof.
  intros ctx record p Hinv Hopen Hroom. unfold Handle.
  rewrite (Handle_select_inv _ Hinv), Hopen.
  apply Nat.ltb_lt in Hroom. rewrite Hroom. cbn [map].
  rewrite (Handle_arm_send _ _ _ Hinv). reflexivity.
Qed.

(** Open and full: no case can proceed, the [default] arm runs. *)
Lemma Handle_open_full : forall ctx record p,
  inv p -> is_closed p = false -> (capacity p <= List.length (buffered p))%nat ->
  Handle ctx record p = [(HandleDefault, Ok (p, None))].
Proof.
  intros ctx record p Hinv Hopen Hfull. unfold Handle.
  rewrite (Handle_select_inv _ Hinv), Hopen.
  apply Nat.ltb_ge in Hfull. rewrite Hfull. reflexivity.
Qed.

(** Open, context active: the oldest record if there is one, and a
    blocked call otherwise. *)
Lemma Read_open_active : forall p,
  inv p -> is_closed p = false ->
  Read context.Active p =
    match buffered p with
    | [] => []
    | r :: _ => [(ReadRecord, (taken p, (Some (convertSlogRecord r), None)))]
    end.
Proof.
  intros p Hinv Hopen. unfold Read.
  rewrite (Read_select_inv _ _ Hinv), Hopen.
  destruct (buffered p) as [|r rest] eqn:Hb; [reflexivity|].
  cbn [context.Done_ready app map].
  rewrite (Read_arm_record _ _ _ _ Hb). reflexivity.
Qed.

Lemma inv_stored : forall record p,
  inv p -> (List.length (buffered p) < capacity p)%nat -> inv (stored record p).
Proof.
  intros record p (Hr & Hb & Ho & Hl) Hroom.
  unfold inv, stored, buffered, capacity in *. simpl.
  rewrite length_app. simpl. repeat split; auto. lia.
Qed.

Lemma inv_taken : forall p, inv p -> inv (taken p).
Proof.
  intros p (Hr & Hb & Ho & Hl).
  unfold inv, taken, buffered, capacity in *. simpl.
  repeat split; auto. destruct (chan_buf (records p)); simpl in *; lia.
Qed.

Lemma handled_app : forall tr1 tr2, handled (tr1 ++ tr2) = handled tr1 ++ handled tr2.
Proof.
  induction tr1 as [|[] tr1 IH]; intros tr2; simpl; rewrite ?IH; reflexivity.
Qed.

Lemma delivered_app : forall tr1 tr2,
  delivered (tr1 ++ tr2) = delivered tr1 ++ delivered tr2.
Proof.
  induction tr1 as [|[] tr1 IH]; intros tr2; simpl; rewrite ?IH; reflexivity.
Qed.

(** A producer's calls on an open queue with room for all of them: every
    execution stores them all, in order. *)
Lemma handles_open : forall ctx rs p tr p',
  inv p -> is_closed p = false ->
  (List.length (buffered p) + List.length rs <= capacity p)%nat ->
  steps p tr p' -> map call_of tr = map (CallHandle ctx) rs ->
  handled tr = map (fun _ => (Accepted, None)) rs
  /\ delivered tr = []
  /\ buffered p' = buffered p ++ rs
  /\ inv p' /\ is_closed p' = false /\ capacity p' = capacity p.
Proof.
  intros ctx rs. induction rs as [|r rs IH]; intros p tr p' Hinv Hopen Hcap Hs Hc.
  - destruct tr; [|discriminate]. inversion Hs; subst.
    rewrite app_nil_r. splits; auto.
  - destruct tr as [|ev tr]; [discriminate|]. simpl in Hc, Hcap.
    injection Hc as Hev Hc. inversion Hs; subst.
    inversion H2; subst; try discriminate. simpl in Hev. injection Hev as -> ->.
    rewrite Handle_open_room in H by (auto; lia).
    destruct H as [E|[]]. injection E as <- <- <-.
    destruct (IH (stored r p) tr p') as (Hh & Hd & Hb & Hi & Ho & Hk); auto.
    + apply inv_stored; [assumption|lia].
    + unfold buffered, stored in *. simpl. rewrite length_app. simpl. unfold capacity in *.
      simpl. lia.
    + simpl. rewrite Hh, Hd, Hb. unfold buffered, stored. simpl.
      rewrite <- app_assoc. splits; auto.
Qed.

(** A consumer's calls, with an active context, on an open queue: as
    many calls as there are buffered records deliver exactly these, in
    order, and empty the buffer. *)
Lemma reads_open : forall bs p tr p',
  inv p -> is_closed p = false -> buffered p = bs ->
  steps p tr p' ->
  map call_of tr = repeat (CallRead context.Background) (List.length bs) ->
  handled tr = []
  /\ delivered tr = map (fun r => (Some (convertSlogRecord r), None)) bs
  /\ buffered p' = []
  /\ inv p' /\ is_closed p' = false /\ capacity p' = capacity p.
Proof.
  induction bs as [|r bs IH]; intros p tr p' Hinv Hopen Hb Hs Hc.
  - destruct tr; [|discriminate]. inversion Hs; subst. splits; auto.
  - destruct tr as [|ev tr]; [discriminate|]. simpl in Hc.
    injection Hc as Hev Hc. inversion Hs; subst.
    inversion H2; subst; try discriminate. simpl in Hev. injection Hev as ->.
    unfold context.Background in H. rewrite Read_open_active in H by auto.
    rewrite Hb in H. destruct H as [E|[]]. injection E as <- <- <- <-.
    destruct (IH (taken p) tr p') as (Hh & Hd & Hb' & Hi & Ho & Hk); auto.
    + apply inv_taken. assumption.
    + unfold buffered, taken in *. simpl. rewrite Hb. reflexivity.
    + simpl. rewrite Hh, Hd. splits; auto.
Qed.

Lemma handles_open_exists : forall ctx rs p,
  inv p -> is_closed p = false ->
  (List.length (buffered p) + List.length rs <= capacity p)%nat ->
  exists tr p', steps p tr p' /\ map call_of tr = map (CallHandle ctx) rs.
Proof.
  intros ctx rs. induction rs as [|r rs IH]; intros p Hinv Hopen Hcap.
  - exists [], p. split; constructor.
  - simpl in Hcap. destruct (IH (stored r p)) as (tr & p' & Hs & Hc).
    + apply inv_stored; [assumption|lia].
    + assumption.
    + unfold buffered, capacity, stored in *. simpl. rewrite length_app. simpl. lia.
    + exists (EvHandle ctx r HandleSend None :: tr), p'. split.
      * econstructor; [|eassumption]. constructor.
        rewrite Handle_open_room by (auto; lia). left. reflexivity.
      * simpl. rewrite Hc. reflexivity.
Qed.

Lemma reads_open_exists : forall bs p,
  inv p -> is_closed p = false -> buffered p = bs ->
  exists tr p', steps p tr p'
    /\ map call_of tr = repeat (CallRead context.Background) (List.length bs).
Proof.
  induction bs as [|r bs IH]; intros p Hinv Hopen Hb.
  - exists [], p. split; constructor.
  - destruct (IH (taken p)) as (tr & p' & Hs & Hc).
    + apply inv_taken. assumption.
    + assumption.
    + unfold buffered, taken in *. simpl. rewrite Hb. reflexivity.
    + exists (EvRead context.Background ReadRecord (Some (convertSlogRecord r)) None :: tr), p'.
      split.
      * econstructor; [|eassumption]. constructor. unfold context.Background.
        rewrite Read_open_active by auto. rewrite Hb. left. reflexivity.
      * simpl. rewrite Hc. reflexivity.
Qed.

Lemma fifo_step : forall p ev p',
  inv p -> step p ev p' ->
  map convertSlogRecord (buffered p ++ accepted [ev])
  = returned [ev] ++ map convertSlogRecord (buffered p').
Proof.
  intros p ev p' Hinv Hstep. inversion Hstep; subst; clear Hstep.
  - apply Handle_in in H as [_ Harm]. destruct arm.
    + rewrite Handle_arm_send in Harm by assumption. injection Harm as -> ->.
      reflexivity.
    + rewrite Handle_arm_closed in Harm by assumption. injection Harm as -> ->.
      simpl. rewrite app_nil_r. reflexivity.
    + simpl in Harm. injection Harm as -> ->. simpl. rewrite app_nil_r. reflexivity.
  - apply Read_in in H as [Hsel Harm].
    rewrite (Read_select_inv _ _ Hinv) in Hsel. destruct arm.
    + destruct (buffered p) as [|r rest] eqn:Hb.
      * exfalso. simpl in Hsel.
        destruct (context.Done_ready ctx); destruct (is_closed p); simpl in Hsel;
          repeat (destruct Hsel as [Hsel|Hsel]; try discriminate Hsel); contradiction.
      * rewrite (Read_arm_record _ _ _ _ Hb) in Harm. injection Harm as -> -> ->.
        unfold buffered, taken in *. simpl. rewrite Hb, app_nil_r. reflexivity.
    + simpl in Harm. injection Harm as -> -> ->. simpl. rewrite app_nil_r. reflexivity.
    + rewrite Read_arm_closed in Harm by assumption. injection Harm as -> -> ->.
      simpl. rewrite app_nil_r. reflexivity.
  - destruct Hinv as (_ & _ & Ho & _). unfold Close, close in H. rewrite <- Ho in H.
    destruct (chan_closed (closed p)); injection H as <- <-;
      simpl; rewrite app_nil_r; reflexivity.
Qed.

Lemma accepted_cons : forall ev tr, accepted (ev :: tr) = accepted [ev] ++ accepted tr.
Proof. intros [? ? [] ?|? ? ? ?|?] tr; reflexivity. Qed.

Lemma returned_cons : forall ev tr, returned (ev :: tr) = returned [ev] ++ returned tr.
Proof. intros [? ? ? ?|? ? [?|] ?|?] tr; reflexivity. Qed.

(** The queue neither loses, repeats nor reorders: in every execution,
    what was buffered before and what was stored since is what has been
    returned followed by what is still buffered. *)
Lemma fifo_law : forall p tr p',
  steps p tr p' -> inv p ->
  map convertSlogRecord (buffered p ++ accepted tr)
  = returned tr ++ map convertSlogRecord (buffered p').
Proof.
  induction 1 as [p|p ev p' tr p'' Hstep Hsteps IH]; intros Hinv.
  - simpl. rewrite app_nil_r. reflexivity.
  - rewrite accepted_cons, returned_cons, app_assoc, map_app.
    rewrite (fifo_step _ _ _ Hinv Hstep), <- !app_assoc, <- map_app.
    rewrite IH by (eapply inv_step; eassumption). reflexivity.
Qed.

(** ** Properties of the hand-off queue *)

(** C4: on an open, empty queue, a producer's calls that fit the
    capacity followed by as many [Read] calls with an active context
    can always be executed, and in every execution each [Handle] is
    accepted and the [Read] calls return the conversions of exactly the
    handled records, each once and in the order they were handled; the
    buffer is empty afterwards.  More generally, in every execution
    whatever, the records returned so far followed by those still
    buffered are the conversions of the records accepted, in the order
    they were accepted. *)
Theorem fifo_delivery : forall p ctx rs,
  reachable p -> is_closed p = false -> buffered p = [] ->
  (List.length rs <= capacity p)%nat ->
  let calls :=
    map (CallHandle ctx) rs ++ repeat (CallRead context.Background) (List.length rs) in
  (exists tr p', steps p tr p' /\ map call_of tr = calls)
  /\ (forall tr p', steps p tr p' -> map call_of tr = calls ->
        handled tr = map (fun _ => (Accepted, None)) rs
        /\ delivered tr = map (fun r => (Some (convertSlogRecord r), None)) rs
        /\ buffered p' = [])
  /\ (forall tr p', steps p tr p' ->
        returned tr ++ map convertSlogRecord (buffered p')
        = map convertSlogRecord (accepted tr)).
Proof.
  intros p ctx rs Hreach Hopen Hempty Hcap calls. subst calls.
  assert (Hinv : inv p) by (apply inv_reachable; assumption).
  assert (Hroom : (List.length (buffered p) + List.length rs <= capacity p)%nat)
    by (rewrite Hempty; simpl; lia).
  split; [|split].
  - destruct (handles_open_exists ctx rs p Hinv Hopen Hroom) as (tr1 & p1 & Hs1 & Hc1).
    destruct (handles_open ctx rs p tr1 p1 Hinv Hopen Hroom Hs1 Hc1)
      as (_ & _ & Hb1 & Hi1 & Ho1 & _).
    rewrite Hempty in Hb1. simpl in Hb1.
    destruct (reads_open_exists rs p1 Hi1 Ho1 Hb1) as (tr2 & p2 & Hs2 & Hc2).
    exists (tr1 ++ tr2), p2. split.
    + eapply steps_app; eassumption.
    + rewrite map_app, Hc1, Hc2. reflexivity.
  - intros tr p' Hs Hc.
    apply map_eq_app in Hc as (tr1 & tr2 & -> & Hc1 & Hc2).
    apply steps_app_inv in Hs as (p1 & Hs1 & Hs2).
    destruct (handles_open ctx rs p tr1 p1 Hinv Hopen Hroom Hs1 Hc1)
      as (Hh1 & Hd1 & Hb1 & Hi1 & Ho1 & _).
    rewrite Hempty in Hb1. simpl in Hb1.
    destruct (reads_open rs p1 tr2 p' Hi1 Ho1 Hb1 Hs2 Hc2)
      as (Hh2 & Hd2 & Hb2 & _).
    rewrite handled_app, delivered_app, Hh1, Hh2, Hd1, Hd2, app_nil_r.
    auto.
  - intros tr p' Hs. rewrite <- (fifo_law _ _ _ Hs Hinv), Hempty. reflexivity.
Qed.

(** [fifo_delivery] on [New(2)] with [recordA] and [recordB]. *)
Lemma fifo_delivery_witness :
  (exists tr p', steps provider2 tr p' /\ map call_of tr = calls_AB)
  /\ (forall tr p', steps provider2 tr p' -> map call_of tr = calls_AB ->
        handled tr = [(Accepted, None); (Accepted, None)]
        /\ delivered tr =
             [(Some (convertSlogRecord recordA), None); (Some (convertSlogRecord recordB), None)]
        /\ buffered p' = [])
  /\ (forall tr p', steps provider2 tr p' ->
        returned tr ++ map convertSlogRecord (buffered p')
        = map convertSlogRecord (accepted tr)).
Proof.
  apply (fifo_delivery provider2 context.Background [recordA; recordB]).
  - apply (reachable_New 2). reflexivity.
  - reflexivity.
  - reflexivity.
  - cbv. lia.
Defined.


(** C7: a [Read] whose context is already done, on an empty and open
    queue, has one outcome: it returns at once, with no record and the
    context's own error, which is not nil, and leaves the provider as it
    was. *)
Theorem Read_cancelled : forall p ctx,
  reachable p -> is_closed p = false -> buffered p = [] ->
  context.Done_ready ctx = true ->
  Read ctx p = [(ReadDone, (p, (None, context.Err ctx)))]
  /\ context.Err ctx <> None.
Proof.
  intros p ctx Hreach Hopen Hempty Hdone.
  apply inv_reachable in Hreach. unfold Read.
  rewrite (Read_select_inv _ _ Hreach), Hopen, Hempty, Hdone.
  split; [reflexivity|]. destruct ctx; [discriminate|]. discriminate.
Qed.

(** [Read_cancelled] on [New(2)] with a cancelled context. *)
Lemma Read_cancelled_witness :
  Read (context.Done "context canceled") provider2
    = [(ReadDone, (provider2, (None, Some "context canceled")))]
  /\ context.Err (context.Done "context canceled") <> None.
Proof.
  apply (Read_cancelled provider2 (context.Done "context canceled")).
  - apply (reachable_New 2). reflexivity.
  - reflexivity.
  - reflexivity.
  - reflexivity.
Defined.

(** C10: [Read] returns through its closed arm exactly when it returns a
    nil record together with a nil error: the closed arm yields (nil,
    nil), the record arm a record, and the done arm the context's error,
    which is not nil. *)
Theorem Read_closed_nil_nil : forall ctx p arm p' rec err,
  In (arm, (p', (rec, err))) (Read ctx p) ->
  (arm = ReadClosed <-> (rec = None /\ err = None)).
Proof.
  intros ctx p arm p' rec err Hin. apply Read_in in Hin as [Hsel Harm].
  destruct arm; simpl in Harm.
  - destruct (recv zeroRecord (records p)) as [c r]. injection Harm as -> -> ->.
    split; [discriminate|]. intros [E _]. discriminate E.
  - injection Harm as -> -> ->. split; [discriminate|]. intros [_ E].
    unfold Read_select in Hsel. destruct ctx as [|reason]; [|discriminate E].
    simpl in Hsel.
    destruct (recv_ready (records p)); destruct (recv_ready (closed p)); simpl in Hsel;
      repeat (destruct Hsel as [Hsel|Hsel]; try discriminate Hsel); contradiction.
  - destruct (recv tt (closed p)) as [c u]. injection Harm as -> -> ->.
    split; auto.
Qed.

(** [Read_closed_nil_nil] on a closed, empty provider. *)
Lemma Read_closed_nil_nil_witness :
  In (ReadClosed, (provider2_closed, (None, None))) (Read context.Background provider2_closed)
  /\ (ReadClosed = ReadClosed <-> (@None iris.Record = None /\ @None string = None)).
Proof.
  split.
  - left. reflexivity.
  - apply (Read_closed_nil_nil context.Background provider2_closed
             ReadClosed provider2_closed None None).
    left. reflexivity.
Defined.

(** No call ever reopens the signal. *)
Lemma step_keeps_closed : forall p ev p',
  step p ev p' -> is_closed p = true -> is_closed p' = true.
Proof.
  intros p ev p' Hstep Hc. unfold is_closed in *. inversion Hstep; subst; clear Hstep.
  - apply Handle_in in H as [_ Harm]. destruct arm; simpl in Harm.
    + destruct (send (records p) record); [|discriminate].
      injection Harm as -> ->. assumption.
    + unfold recv in Harm. destruct (chan_buf (closed p));
        injection Harm as -> ->; assumption.
    + injection Harm as -> ->. assumption.
  - apply Read_in in H as [_ Harm]. destruct arm; simpl in Harm.
    + destruct (recv zeroRecord (records p)). injection Harm as -> -> ->. assumption.
    + injection Harm as -> -> ->. assumption.
    + unfold recv in Harm. destruct (chan_buf (closed p));
        injection Harm as -> -> ->; assumption.
  - unfold Close, close in H. rewrite Hc in H.
    destruct (once p); [|discriminate]. injection H as <- <-. assumption.
Qed.

Lemma steps_keep_closed : forall p tr p',
  steps p tr p' -> is_closed p = true -> is_closed p' = true.
Proof.
  induction 1; intros Hc; [assumption|].
  apply IHsteps. eapply step_keeps_closed; eassumption.
Qed.

(** Only [Close] moves the signal. *)
Lemma step_signal_change : forall p ev p',
  inv p -> step p ev p' -> is_closed p' <> is_closed p ->
  ev = EvClose None /\ is_closed p = false /\ is_closed p' = true.
Proof.
  intros p ev p' Hinv Hstep Hne. inversion Hstep; subst; clear Hstep.
  - exfalso. apply Hne. apply Handle_in in H as [_ Harm].
    destruct arm.
    + rewrite Handle_arm_send in Harm by assumption. injection Harm as -> ->. reflexivity.
    + rewrite Handle_arm_closed in Harm by assumption. injection Harm as -> ->. reflexivity.
    + simpl in Harm. injection Harm as -> ->. reflexivity.
  - exfalso. apply Hne. apply Read_in in H as [_ Harm].
    destruct arm.
    + simpl in Harm. destruct (recv zeroRecord (records p)).
      injection Harm as -> -> ->. reflexivity.
    + simpl in Harm. injection Harm as -> -> ->. reflexivity.
    + rewrite Read_arm_closed in Harm by assumption. injection Harm as -> -> ->. reflexivity.
  - destruct Hinv as (_ & _ & Ho & _). unfold Close, close in H. rewrite <- Ho in H.
    unfold is_closed in *. destruct (chan_closed (closed p)) eqn:E.
    + injection H as <- <-. contradiction.
    + injection H as <- <-. auto.
Qed.

(** C6: [Close] is idempotent.  On every reachable provider it returns
    nil without panicking and leaves the signal closed and the records
    channel untouched; on a provider that is already closed it changes
    nothing, so any number of calls, one or more, ends in the state a
    single call gives.  The signal only ever moves from open to closed
    (by a [Close] on an open provider), and once closed it stays closed
    through every later call. *)
Theorem Close_idempotent : forall p,
  reachable p ->
  exists p1,
    Close p = Ok (p1, None)
    /\ is_closed p1 = true
    /\ records p1 = records p
    /\ (is_closed p = true -> p1 = p)
    /\ Close p1 = Ok (p1, None)
    /\ (forall n, Close_times (S n) p = Ok p1)
    /\ (forall tr p2, steps p1 tr p2 -> is_closed p2 = true)
    /\ (forall ev p', step p ev p' -> is_closed p' <> is_closed p ->
          ev = EvClose None /\ is_closed p = false /\ is_closed p' = true).
Proof.
  intros p Hreach. pose proof (inv_reachable _ Hreach) as Hinv.
  destruct Hinv as (Hr & Hb & Ho & Hl).
  assert (Hclose : exists p1, Close p = Ok (p1, None) /\ is_closed p1 = true
                     /\ once p1 = true /\ records p1 = records p
                     /\ (is_closed p = true -> p1 = p)).
  { unfold Close, close, is_closed. rewrite <- Ho.
    destruct (chan_closed (closed p)) eqn:E.
    - exists p. splits; auto.
    - eexists. splits; try reflexivity. discriminate. }
  destruct Hclose as (p1 & HC & Hc1 & Ho1 & Hr1 & Hsame).
  assert (HC1 : Close p1 = Ok (p1, None)) by (unfold Close; rewrite Ho1; reflexivity).
  exists p1. splits; auto.
  - intros n. simpl. rewrite HC. induction n as [|n IH]; simpl; [reflexivity|].
    rewrite HC1. assumption.
  - intros tr p2 Hs. eapply steps_keep_closed; eassumption.
  - intros ev p' Hstep Hne. eapply step_signal_change; try eassumption.
    unfold inv. auto.
Qed.

(** [Close_idempotent] on [New(2)]. *)
Lemma Close_idempotent_witness :
  exists p1,
    Close provider2 = Ok (p1, None)
    /\ is_closed p1 = true
    /\ records p1 = records provider2
    /\ (is_closed provider2 = true -> p1 = provider2)
    /\ Close p1 = Ok (p1, None)
    /\ (forall n, Close_times (S n) provider2 = Ok p1)
    /\ (forall tr p2, steps p1 tr p2 -> is_closed p2 = true)
    /\ (forall ev p', step provider2 ev p' -> is_closed p' <> is_closed provider2 ->
          ev = EvClose None /\ is_closed provider2 = false /\ is_closed p' = true).
Proof.
  apply (Close_idempotent provider2). apply (reachable_New 2). reflexivity.
Defined.

(** Three calls of [Close] on a fresh provider end where one call does. *)
Example Close_three_times :
  Close_times 3 provider2 = Ok provider2_closed
  /\ Close_times 1 provider2 = Ok provider2_closed.
Proof. split; reflexivity. Qed.

(** C3, as stated, fails: [Handle] returns nil both when it stores the
    record and when it drops it.  With capacity 1 the first call is
    accepted and the second dropped, and both return nil, so no reading
    of the returned error recovers the three outcomes. *)
Lemma Handle_nil_ambiguous :
  Handle context.Background recordA provider1
    = [(HandleSend, Ok (stored recordA provider1, None))]
  /\ Handle context.Background recordB (stored recordA provider1)
    = [(HandleDefault, Ok (stored recordA provider1, None))]
  /\ ~ (exists classify : error -> EnqueueResult,
          forall p ctx record arm p' err,
            reachable p -> In (arm, Ok (p', err)) (Handle ctx record p) ->
            classify err = Handle_result arm).
Proof.
  splits; [reflexivity|reflexivity|].
  intros [classify H].
  assert (R1 : reachable provider1) by (apply (reachable_New 1); reflexivity).
  assert (S1 : In (HandleSend, Ok (stored recordA provider1, @None string))
                 (Handle context.Background recordA provider1)) by (left; reflexivity).
  assert (R2 : reachable (stored recordA provider1)).
  { eapply reachable_step; [exact R1|]. constructor. exact S1. }
  assert (S2 : In (HandleDefault, Ok (stored recordA provider1, @None string))
                 (Handle context.Background recordB (stored recordA provider1)))
    by (left; reflexivity).
  pose proof (H _ _ _ _ _ _ R1 S1) as E1.
  pose proof (H _ _ _ _ _ _ R2 S2) as E2.
  simpl in E1, E2. congruence.
Qed.

(** C3, amended: [Handle] never panics and never blocks.  Every call
    returns an ordinary error value: the error "slog provider closed"
    when the closed arm ran, and nil when the record was accepted and
    when it was dropped alike. *)
Theorem Handle_never_panics : forall p ctx record,
  reachable p ->
  Handle ctx record p <> []
  /\ (forall arm res, In (arm, res) (Handle ctx record p) ->
        exists p',
          res = Ok (p', match Handle_result arm with
                        | Closed => Some "slog provider closed"
                        | Accepted | Dropped => None
                        end)).
Proof.
  intros p ctx record Hreach. apply inv_reachable in Hreach. split.
  - unfold Handle. rewrite (Handle_select_inv _ Hreach).
    destruct (List.length (buffered p) <? capacity p)%nat; destruct (is_closed p);
      discriminate.
  - intros arm res Hin. apply Handle_in in Hin as [_ ->]. destruct arm.
    + rewrite Handle_arm_send by assumption. eexists. reflexivity.
    + rewrite Handle_arm_closed by assumption. eexists. reflexivity.
    + eexists. reflexivity.
Qed.

(** [Handle_never_panics] on [New(2)] after [Close]. *)
Lemma Handle_never_panics_witness :
  Handle context.Background recordA provider2_closed <> []
  /\ (forall arm res, In (arm, res) (Handle context.Background recordA provider2_closed) ->
        exists p',
          res = Ok (p', match Handle_result arm with
                        | Closed => Some "slog provider closed"
                        | Accepted | Dropped => None
                        end)).
Proof.
  apply (Handle_never_panics provider2_closed context.Background recordA).
  exists 2, provider2, [EvClose None]. split; [reflexivity|].
  econstructor; [|constructor]. constructor. reflexivity.
Defined.

(** ** The closed queue *)

(** Closed, with room: the send and the receive from the signal can both
    proceed, so [Handle] may store the record and return nil, or return
    the error. *)
Lemma Handle_closed_room : forall ctx record p,
  inv p -> is_closed p = true -> (List.length (buffered p) < capacity p)%nat ->
  Handle ctx record p =
    [(HandleSend, Ok (stored record p, None));
     (HandleClosed, Ok (p, Some "slog provider closed"))].
Proof.
  intros ctx record p Hinv Hc Hroom. unfold Handle.
  rewrite (Handle_select_inv _ Hinv), Hc.
  apply Nat.ltb_lt in Hroom. rewrite Hroom. cbn [map].
  rewrite (Handle_arm_send _ _ _ Hinv), (Handle_arm_closed _ _ _ Hinv). reflexivity.
Qed.

(** Closed and full: only the error. *)
Lemma Handle_closed_full : forall ctx record p,
  inv p -> is_closed p = true -> (capacity p <= List.length (buffered p))%nat ->
  Handle ctx record p = [(HandleClosed, Ok (p, Some "slog provider closed"))].
Proof.
  intros ctx record p Hinv Hc Hfull. unfold Handle.
  rewrite (Handle_select_inv _ Hinv), Hc.
  apply Nat.ltb_ge in Hfull. rewrite Hfull. cbn [map].
  rewrite (Handle_arm_closed _ _ _ Hinv). reflexivity.
Qed.

(** Closed, context active: with a record buffered [Read] may deliver it
    or report the end of the stream; with none it reports the end. *)
Lemma Read_closed_active : forall p,
  inv p -> is_closed p = true ->
  Read context.Active p =
    match buffered p with
    | [] => [(ReadClosed, (p, (None, None)))]
    | r :: _ =>
        [(ReadRecord, (taken p, (Some (convertSlogRecord r), None)));
         (ReadClosed, (p, (None, None)))]
    end.
Proof.
  intros p Hinv Hc. unfold Read.
  rewrite (Read_select_inv _ _ Hinv), Hc.
  destruct (buffered p) as [|r rest] eqn:Hb; cbn [context.Done_ready app map].
  - rewrite (Read_arm_closed _ _ Hinv). reflexivity.
  - rewrite (Read_arm_record _ _ _ _ Hb), (Read_arm_closed _ _ Hinv). reflexivity.
Qed.

(** C1 at a failing input: [New(5)], [Handle(recordA)], [Close()].  The
    record is still buffered, yet the next [Read] has two outcomes, and
    one of them is the closed arm's (nil, nil), which leaves the record
    in the buffer. *)
Lemma Read_after_Close_may_skip_buffered :
  exists p0 p1 p2,
    New 5 = Ok p0
    /\ Handle context.Background recordA p0 = [(HandleSend, Ok (p1, None))]
    /\ Close p1 = Ok (p2, None)
    /\ buffered p2 = [recordA]
    /\ Read context.Background p2 =
         [(ReadRecord, (taken p2, (Some (convertSlogRecord recordA), None)));
          (ReadClosed, (p2, (None, None)))].
Proof. do 3 eexists. splits; reflexivity. Qed.

(** C2 at a failing input: [New(2)], [Close()], [Handle(recordA)].  The
    call has two outcomes, and the first stores the record and returns
    nil. *)
Lemma Handle_after_Close_may_store :
  exists p0 p1,
    New 2 = Ok p0
    /\ Close p0 = Ok (p1, None)
    /\ is_closed p1 = true
    /\ Handle context.Background recordA p1 =
         [(HandleSend, Ok (stored recordA p1, None));
          (HandleClosed, Ok (p1, Some "slog provider closed"))]
    /\ buffered (stored recordA p1) = [recordA].
Proof. do 2 eexists. splits; reflexivity. Qed.

(** ** Further properties of the provider *)






(** The cases of [Read]'s select on a reachable provider. *)
Lemma Read_outcomes : forall ctx p, inv p ->
  Read ctx p =
    (match buffered p with
     | [] => []
     | r :: _ => [(ReadRecord, (taken p, (Some (convertSlogRecord r), None)))]
     end)
    ++ (if context.Done_ready ctx then [(ReadDone, (p, (None, context.Err ctx)))] else [])
    ++ (if is_closed p then [(ReadClosed, (p, (None, None)))] else []).
Proof.
  intros ctx p Hinv. unfold Read. rewrite (Read_select_inv _ _ Hinv), !map_app.
  f_equal; [|f_equal].
  - destruct (buffered p) as [|r rest] eqn:Hb; [reflexivity|].
    cbn [map]. rewrite (Read_arm_record _ _ _ _ Hb). reflexivity.
  - destruct (context.Done_ready ctx); reflexivity.
  - destruct (is_closed p); [|reflexivity].
    cbn [map]. rewrite (Read_arm_closed _ _ Hinv). reflexivity.
Qed.

(** X3: a [Read] on a reachable provider blocks exactly when the buffer
    is empty, the provider is open and the context is not done.  In
    particular a closed provider never blocks its reader. *)
Theorem Read_blocks_iff : forall p ctx,
  reachable p ->
  (Read ctx p = [] <->
   buffered p = [] /\ is_closed p = false /\ context.Done_ready ctx = false).
Proof.
  intros p ctx Hreach. apply inv_reachable in Hreach.
  rewrite (Read_outcomes _ _ Hreach).
  destruct (buffered p); destruct (context.Done_ready ctx); destruct (is_closed p);
    simpl; split; intros H; try discriminate; auto;
    destruct H as (H1 & H2 & H3); discriminate.
Qed.

(** [Read_blocks_iff] on a fresh provider with the background context. *)
Lemma Read_blocks_iff_witness :
  Read context.Background provider2 = [] <->
  buffered provider2 = [] /\ is_closed provider2 = false
  /\ context.Done_ready context.Background = false.
Proof.
  apply (Read_blocks_iff provider2 context.Background).
  apply (reachable_New 2). reflexivity.
Defined.



(** Handling a list of records on an open provider, with no other call
    in between: the first records fill the room there is and the rest
    are dropped. *)
Lemma handles_overflow : forall ctx rs p tr p',
  inv p -> is_closed p = false ->
  steps p tr p' -> map call_of tr = map (CallHandle ctx) rs ->
  handled tr =
    repeat (Accepted, None)
      (Nat.min (List.length rs) (capacity p - List.length (buffered p)))
    ++ repeat (Dropped, None)
         (List.length rs
          - Nat.min (List.length rs) (capacity p - List.length (buffered p)))
  /\ buffered p' = firstn (capacity p) (buffered p ++ rs)
  /\ is_closed p' = false.
Proof.
  intros ctx rs. induction rs as [|r rs IH]; intros p tr p' Hinv Hopen Hs Hc.
  - destruct tr; [|discriminate]. inversion Hs; subst. simpl.
    rewrite app_nil_r, firstn_all2 by apply Hinv. auto.
  - destruct tr as [|ev tr]; [discriminate|]. simpl in Hc.
    injection Hc as Hev Hc. inversion Hs; subst.
    inversion H2; subst; try discriminate. simpl in Hev. injection Hev as -> ->.
    destruct (Nat.lt_ge_cases (List.length (buffered p)) (capacity p)) as [Hlt|Hge].
    + rewrite Handle_open_room in H by auto.
      destruct H as [E|[]]. injection E as <- <- <-.
      destruct (IH (stored r p) tr p') as (Hh & Hb & Ho); auto.
      { apply inv_stored; assumption. }
      assert (Hlen : List.length (buffered (stored r p)) = S (List.length (buffered p))).
      { unfold buffered, stored. simpl. rewrite length_app. simpl. lia. }
      assert (Hcap : capacity (stored r p) = capacity p) by reflexivity.
      rewrite Hlen, Hcap in Hh. rewrite Hcap in Hb.
      cbn [handled Handle_result List.length]. rewrite Hh, Hb.
      replace (Nat.min (S (List.length rs)) (capacity p - List.length (buffered p)))
        with (S (Nat.min (List.length rs) (capacity p - S (List.length (buffered p)))))
        by lia.
      splits; auto.
      unfold buffered, stored. simpl. rewrite <- app_assoc. reflexivity.
    + rewrite Handle_open_full in H by auto.
      destruct H as [E|[]]. injection E as <- <- <-.
      destruct (IH p tr p') as (Hh & Hb & Ho); auto.
      assert (Hfull : List.length (buffered p) = capacity p).
      { destruct Hinv as (_ & _ & _ & Hl). lia. }
      cbn [handled Handle_result List.length]. rewrite Hh, Hb.
      replace (capacity p - List.length (buffered p))%nat with 0%nat by lia.
      rewrite !Nat.min_0_r, !Nat.sub_0_r. splits; auto.
      rewrite !firstn_app.
      replace (capacity p - List.length (buffered p))%nat with 0%nat by lia.
      reflexivity.
Qed.

Lemma handles_exist : forall ctx rs p,
  inv p -> is_closed p = false ->
  exists tr p', steps p tr p' /\ map call_of tr = map (CallHandle ctx) rs.
Proof.
  intros ctx rs. induction rs as [|r rs IH]; intros p Hinv Hopen.
  - exists [], p. split; constructor.
  - destruct (Nat.lt_ge_cases (List.length (buffered p)) (capacity p)) as [Hlt|Hge].
    + destruct (IH (stored r p)) as (tr & p' & Hs & Hc).
      { apply inv_stored; assumption. }
      { assumption. }
      exists (EvHandle ctx r HandleSend None :: tr), p'. split.
      * econstructor; [|eassumption]. constructor.
        rewrite Handle_open_room by auto. left. reflexivity.
      * simpl. rewrite Hc. reflexivity.
    + destruct (IH p Hinv Hopen) as (tr & p' & Hs & Hc).
      exists (EvHandle ctx r HandleDefault None :: tr), p'. split.
      * econstructor; [|eassumption]. constructor.
        rewrite Handle_open_full by auto. left. reflexivity.
      * simpl. rewrite Hc. reflexivity.
Qed.

(** X5: drop on full, over a whole burst.  When a producer handles a
    list of records on an open provider and nothing is read meanwhile,
    the calls can always be executed, none returns an error, the first
    records, as many as there is room for, are accepted and all later
    ones dropped, and the buffer ends as the old content followed by the
    new records, cut at the capacity. *)
Theorem Handle_overflow : forall p ctx rs,
  reachable p -> is_closed p = false ->
  (exists tr p', steps p tr p' /\ map call_of tr = map (CallHandle ctx) rs)
  /\ (forall tr p', steps p tr p' -> map call_of tr = map (CallHandle ctx) rs ->
        handled tr =
          repeat (Accepted, None)
            (Nat.min (List.length rs) (capacity p - List.length (buffered p)))
          ++ repeat (Dropped, None)
               (List.length rs
                - Nat.min (List.length rs) (capacity p - List.length (buffered p)))
        /\ buffered p' = firstn (capacity p) (buffered p ++ rs)
        /\ is_closed p' = false).
Proof.
  intros p ctx rs Hreach Hopen. apply inv_reachable in Hreach. split.
  - apply handles_exist; assumption.
  - intros tr p' Hs Hc. eapply handles_overflow; eassumption.
Qed.

(** [Handle_overflow] on [New(1)] with two records: the second is
    dropped. *)
Lemma Handle_overflow_witness :
  (exists tr p',
     steps provider1 tr p'
     /\ map call_of tr = map (CallHandle context.Background) [recordA; recordB])
  /\ (forall tr p',
        steps provider1 tr p' ->
        map call_of tr = map (CallHandle context.Background) [recordA; recordB] ->
        handled tr =
          repeat (Accepted, None)
            (Nat.min (List.length [recordA; recordB])
               (capacity provider1 - List.length (buffered provider1)))
          ++ repeat (Dropped, None)
               (List.length [recordA; recordB]
                - Nat.min (List.length [recordA; recordB])
                    (capacity provider1 - List.length (buffered provider1)))
        /\ buffered p' = firstn (capacity provider1) (buffered provider1 ++ [recordA; recordB])
        /\ is_closed p' = false).
Proof.
  apply (Handle_overflow provider1 context.Background [recordA; recordB]).
  - apply (reachable_New 1). reflexivity.
  - reflexivity.
Defined.

(** The burst of the witness, evaluated. *)
Example Handle_overflow_example :
  repeat (Accepted, @None string)
    (Nat.min (List.length [recordA; recordB])
       (capacity provider1 - List.length (buffered provider1)))
  ++ repeat (Dropped, None)
       (List.length [recordA; recordB]
        - Nat.min (List.length [recordA; recordB])
            (capacity provider1 - List.length (buffered provider1)))
  = [(Accepted, None); (Dropped, None)]
  /\ firstn (capacity provider1) (buffered provider1 ++ [recordA; recordB]) = [recordA].
Proof. split; reflexivity. Qed.

(** The converted record, written out. *)
Lemma convertSlogRecord_eq : forall slogRec,
  convertSlogRecord slogRec =
  iris.mkRecord (convertLevel (slog.Record_Level slogRec))
    (slog.Record_Message slogRec)
    (firstn iris.maxFields (map convertAttribute (slog.Record_attrs slogRec))).
Proof.
  intros slogRec. unfold convertSlogRecord. rewrite Attrs_AddField.
  cbn [iris.NewRecord iris.Record_Level iris.Record_Msg iris.Record_fields List.length app].
  rewrite Nat.sub_0_r. reflexivity.
Qed.

Lemma derive_same : forall ds p, derive ds p = p.
Proof.
  induction ds as [|[attrs|name] ds IH]; intros p; simpl;
    [reflexivity|unfold WithAttrs|unfold WithGroup]; apply IH.
Qed.

(** X6: a handler derived by any chain of [WithAttrs] and [WithGroup]
    is the provider itself.  It is enabled at every level, and a record
    handled through it on an open, empty provider with room is stored in
    the provider's own buffer and read back as the conversion of that
    record alone: its fields come from the record's own attributes, and
    nothing of the attributes or group names given to the derivations
    reaches it. *)
Theorem derived_handler_read_back : forall p ds ctx level record,
  reachable p -> is_closed p = false -> buffered p = [] -> (0 < capacity p)%nat ->
  Enabled ctx level (derive ds p) = true
  /\ exists p1 p2,
       Handle ctx record (derive ds p) = [(HandleSend, Ok (p1, None))]
       /\ Read context.Background p1 =
            [(ReadRecord,
              (p2,
               (Some (iris.mkRecord (convertLevel (slog.Record_Level record))
                        (slog.Record_Message record)
                        (firstn iris.maxFields
                           (map convertAttribute (slog.Record_attrs record)))),
                None)))]
       /\ buffered p2 = [].
Proof.
  intros p ds ctx level record Hreach Hopen Hempty Hcap.
  apply inv_reachable in Hreach. rewrite derive_same. split; [reflexivity|].
  exists (stored record p), (taken (stored record p)).
  assert (Hb : buffered (stored record p) = [record]).
  { unfold buffered, stored in *. simpl. rewrite Hempty. reflexivity. }
  splits.
  - apply Handle_open_room; auto. rewrite Hempty. exact Hcap.
  - unfold context.Background. rewrite Read_open_active.
    + rewrite Hb, convertSlogRecord_eq. reflexivity.
    + apply inv_stored; [assumption|]. rewrite Hempty. exact Hcap.
    + assumption.
  - unfold buffered, taken, stored in *. simpl. rewrite Hempty. reflexivity.
Qed.

(** [derived_handler_read_back] on [New(2)], through a handler derived
    with a group and an attribute. *)
Lemma derived_handler_read_back_witness :
  Enabled context.Background slog.LevelDebug
    (derive [DeriveGroup "request";
             DeriveAttrs [slog.mkAttr "request_id" (slog.StringValue "req-123")]]
       provider2) = true
  /\ exists p1 p2,
       Handle context.Background recordA
         (derive [DeriveGroup "request";
                  DeriveAttrs [slog.mkAttr "request_id" (slog.StringValue "req-123")]]
            provider2)
         = [(HandleSend, Ok (p1, None))]
       /\ Read context.Background p1 =
            [(ReadRecord,
              (p2,
               (Some (iris.mkRecord (convertLevel (slog.Record_Level recordA))
                        (slog.Record_Message recordA)
                        (firstn iris.maxFields
                           (map convertAttribute (slog.Record_attrs recordA)))),
                None)))]
       /\ buffered p2 = [].
Proof.
  apply (derived_handler_read_back provider2
           [DeriveGroup "request";
            DeriveAttrs [slog.mkAttr "request_id" (slog.StringValue "req-123")]]
           context.Background slog.LevelDebug recordA).
  - apply (reachable_New 2). reflexivity.
  - reflexivity.
  - reflexivity.
  - cbv. lia.
Defined.

(** The record read back in the witness: the one field of [recordA],
    and no request_id. *)
Example derived_handler_fields :
  firstn iris.maxFields (map convertAttribute (slog.Record_attrs recordA))
  = [iris.String "key" "value"].
Proof. reflexivity. Qed.

(** X7: what the conversion does not look at.  Two slog records with the
    same message, levels in the same bucket and the same first
    [iris.maxFields] attributes convert to the same iris record: the
    time, the program counter and every attribute past the limit have no
    effect. *)
Theorem convertSlogRecord_ignores : forall r1 r2,
  slog.Record_Message r1 = slog.Record_Message r2 ->
  convertLevel (slog.Record_Level r1) = convertLevel (slog.Record_Level r2) ->
  firstn iris.maxFields (slog.Record_attrs r1)
    = firstn iris.maxFields (slog.Record_attrs r2) ->
  convertSlogRecord r1 = convertSlogRecord r2.
Proof.
  intros r1 r2 Hm Hl Ha. rewrite !convertSlogRecord_eq, !firstn_map, Hm, Hl, Ha.
  reflexivity.
Qed.

Lemma convertSlogRecord_ignores_witness :
  record33 <> record40 /\ convertSlogRecord record33 = convertSlogRecord record40.
Proof.
  split; [discriminate|].
  apply (convertSlogRecord_ignores record33 record40); reflexivity.
Defined.

Lemma map_Field_key_convertAttribute : forall l,
  map Field_key (map convertAttribute l) = map slog.Attr_Key l.
Proof.
  induction l as [|[key v] l IH]; [reflexivity|].
  cbn [map]. rewrite IH. destruct v; reflexivity.
Qed.

(** X8: the fields of a converted record.  There are as many as the
    slog record has attributes, up to [iris.maxFields]; their keys are
    the attributes' keys in the same order; and a record with at most
    [iris.maxFields] attributes loses none. *)
Theorem convertSlogRecord_fields : forall slogRec,
  List.length (iris.Record_fields (convertSlogRecord slogRec))
    = Nat.min (List.length (slog.Record_attrs slogRec)) iris.maxFields
  /\ map Field_key (iris.Record_fields (convertSlogRecord slogRec))
     = firstn iris.maxFields (map slog.Attr_Key (slog.Record_attrs slogRec))
  /\ ((List.length (slog.Record_attrs slogRec) <= iris.maxFields)%nat ->
      iris.Record_fields (convertSlogRecord slogRec)
      = map convertAttribute (slog.Record_attrs slogRec)).
Proof.
  intros slogRec. rewrite convertSlogRecord_eq. cbn [iris.Record_fields]. splits.
  - rewrite length_firstn, length_map. apply Nat.min_comm.
  - rewrite firstn_map, map_Field_key_convertAttribute, firstn_map. reflexivity.
  - intros Hle. apply firstn_all2. rewrite length_map. exact Hle.
Qed.

(** ** The writer of the integration tests: properties *)

Lemma string_of_list_byte_app : forall a b,
  string_of_list_byte (a ++ b)
  = String.append (string_of_list_byte a) (string_of_list_byte b).
Proof.
  intros a b. unfold string_of_list_byte. rewrite map_app.
  induction (map Ascii.ascii_of_byte a) as [|x l IH]; simpl; [reflexivity|].
  rewrite IH. reflexivity.
Qed.

(** X9: successive [Write] calls accumulate.  After writing a list of
    chunks, [String()] is what it was before followed by the chunks in
    order; every call returns the length of its chunk and a nil error;
    and [Sync] returns nil and leaves the content as it is. *)
Theorem bufferedWriter_Writes_concat : forall chunks b,
  bufferedWriter_String (fst (bufferedWriter_Writes b chunks))
    = String.append (bufferedWriter_String b) (string_of_list_byte (List.concat chunks))
  /\ snd (bufferedWriter_Writes b chunks)
     = map (fun p => (Z.of_nat (List.length p), None)) chunks
  /\ bufferedWriter_Sync (fst (bufferedWriter_Writes b chunks))
     = (fst (bufferedWriter_Writes b chunks), None).
Proof.
  induction chunks as [|p chunks IH]; intros b.
  - unfold bufferedWriter_String. simpl. splits; try reflexivity.
    rewrite <- string_of_list_byte_app, app_nil_r. reflexivity.
  - destruct (IH (mkBufferedWriter (data b ++ p))) as (Hs & Hr & _).
    cbn [bufferedWriter_Writes bufferedWriter_Write].
    destruct (bufferedWriter_Writes (mkBufferedWriter (data b ++ p)) chunks) as [b' rets].
    cbn [fst snd] in *. splits.
    + rewrite Hs. unfold bufferedWriter_String. cbn [data List.concat].
      rewrite <- !string_of_list_byte_app, app_assoc. reflexivity.
    + cbn [map]. rewrite Hr. reflexivity.
    + reflexivity.
Qed.

(** ** Reports of closure *)

(** X10: the terminal results of [Read] are sound.  When a [Read] on a
    reachable provider returns no record, either the error is nil too
    and the provider is closed, or the error is the context's own, not
    nil, and the context is done. *)
Theorem Read_terminal_sound : forall p ctx arm p' err,
  reachable p ->
  In (arm, (p', (None, err))) (Read ctx p) ->
  (err = None /\ is_closed p = true)
  \/ (err = context.Err ctx /\ err <> None /\ context.Done_ready ctx = true).
Proof.
  intros p ctx arm p' err Hreach Hin. apply inv_reachable in Hreach.
  rewrite (Read_outcomes _ _ Hreach) in Hin.
  apply in_app_or in Hin as [Hin|Hin]; [|apply in_app_or in Hin as [Hin|Hin]].
  - destruct (buffered p); [contradiction|]. destruct Hin as [E|[]]. discriminate E.
  - destruct ctx as [|reason]; simpl in Hin; [contradiction|].
    destruct Hin as [E|[]]. injection E as <- <- <-. right. splits; auto. discriminate.
  - destruct (is_closed p); [|contradiction].
    destruct Hin as [E|[]]. injection E as <- <- <-. left. auto.
Qed.

(** [Read_terminal_sound] on a closed, empty provider. *)
Lemma Read_terminal_sound_witness :
  (@None string = None /\ is_closed provider2_closed = true)
  \/ (None = context.Err context.Background /\ @None string <> None
      /\ context.Done_ready context.Background = true).
Proof.
  apply (Read_terminal_sound provider2_closed context.Background ReadClosed
           provider2_closed None).
  - exists 2, provider2, [EvClose None]. split; [reflexivity|].
    econstructor; [|constructor]. constructor. reflexivity.
  - left. reflexivity.
Defined.

Lemma step_reports_closed : forall p ev p',
  inv p -> is_closed p = false -> step p ev p' ->
  reports_closed ev = false /\ (is_Close ev = false -> is_closed p' = false).
Proof.
  intros p ev p' Hinv Hopen Hstep. inversion Hstep; subst; clear Hstep.
  - apply Handle_in in H as [Hsel Harm].
    rewrite (Handle_select_inv _ Hinv), Hopen in Hsel.
    destruct (List.length (buffered p) <? capacity p)%nat;
      destruct Hsel as [<-|[]].
    + rewrite Handle_arm_send in Harm by assumption. injection Harm as -> ->.
      split; [reflexivity|]. intros _. exact Hopen.
    + simpl in Harm. injection Harm as -> ->. split; [reflexivity|]. intros _. exact Hopen.
  - rewrite (Read_outcomes _ _ Hinv), Hopen, app_nil_r in H.
    apply in_app_or in H as [H|H].
    + destruct (buffered p); [contradiction|]. destruct H as [E|[]].
      injection E as <- <- <- <-. split; [reflexivity|]. intros _. exact Hopen.
    + destruct ctx as [|reason]; simpl in H; [contradiction|].
      destruct H as [E|[]]. injection E as <- <- <- <-.
      split; [reflexivity|]. intros _. exact Hopen.
  - split; [reflexivity|]. intros E. discriminate E.
Qed.

(** X11: nothing reports closure before [Close] is called.  Along every
    execution from an open reachable provider that contains no [Close]
    call, the provider stays open, no [Handle] returns an error and no
    [Read] returns the end of the stream. *)
Theorem open_until_Close : forall p tr p',
  reachable p -> is_closed p = false ->
  steps p tr p' -> forallb (fun ev => negb (is_Close ev)) tr = true ->
  is_closed p' = false
  /\ forallb (fun ev => negb (reports_closed ev)) tr = true.
Proof.
  intros p tr p' Hreach Hopen Hs. apply inv_reachable in Hreach.
  induction Hs as [p|p ev p1 tr p2 Hstep Hsteps IH]; intros Hnc.
  - auto.
  - cbn [forallb] in *. apply andb_true_iff in Hnc as [Hev Htr].
    apply negb_true_iff in Hev.
    destruct (step_reports_closed _ _ _ Hreach Hopen Hstep) as [Hrep Hstay].
    destruct IH as [Hfin Hall]; auto.
    + eapply inv_step; eassumption.
    + split; [exact Hfin|]. rewrite Hrep, Hall. reflexivity.
Qed.

(** An execution of three calls on [New(1)]: an accepted record, a
    dropped one, and a read. *)
Lemma open_until_Close_witness :
  is_closed (taken (stored recordA provider1)) = false
  /\ forallb (fun ev => negb (reports_closed ev))
       [EvHandle context.Background recordA HandleSend None;
        EvHandle context.Background recordB HandleDefault None;
        EvRead context.Background ReadRecord (Some (convertSlogRecord recordA)) None]
     = true.
Proof.
  apply (open_until_Close provider1
           [EvHandle context.Background recordA HandleSend None;
            EvHandle context.Background recordB HandleDefault None;
            EvRead context.Background ReadRecord (Some (convertSlogRecord recordA)) None]
           (taken (stored recordA provider1))).
  - apply (reachable_New 1). reflexivity.
  - reflexivity.
  - apply (steps_cons _ _ (stored recordA provider1)); [constructor; left; reflexivity|].
    apply (steps_cons _ _ (stored recordA provider1)); [constructor; left; reflexivity|].
    apply (steps_cons _ _ (taken (stored recordA provider1)));
      [constructor; left; reflexivity|].
    constructor.
  - reflexivity.
Defined.
